(** * The iterator core of cayley: [graph/iterator/iterator.go]

    A shallow embedding of the [Base] mixin, the [Null] leaf and the
    process-wide UID counter, followed by the properties the specification
    states about them.

    Conventions of the embedding:
    - [uint64] and [int64] quantities are [Z]; the wrap-around of [uint64]
      arithmetic is written out ([wrap64]).
    - A Go struct is a record; a method with a pointer receiver that belongs
      to the traversal protocol is a function from the receiver's contents to
      a result and the receiver's contents afterwards.
    - [*Null] pointers are locations of a heap kept in [World], next to the
      package variable [nextIteratorID]; code that runs against the world is
      written in the monad [Exec], where [None] is a nil-pointer panic.
    - Go maps are [gmap]s: a nil map that is only read is the empty map.
    - Memory: objects of a fixed size (a [Null], a map entry) are always
      allocated; a string whose length the caller chooses is built only when
      the runtime provides the memory, which an oracle says ([allocates]).
    - [ResultTree] is built by [graph.NewResultTree], which is not in the
      file, and is left out. *)

From Stdlib Require Import ZArith Lia.
From stdpp Require Import gmap strings list fin_maps.

Local Open Scope Z_scope.

(** ** Machine integers *)

Definition uint64_modulus : Z := 2 ^ 64.

Definition wrap64 (z : Z) : Z := z mod uint64_modulus.

Definition is_uint64 (z : Z) : Prop := 0 <= z < uint64_modulus.

(** [atomic.AddUint64(addr, delta)]: one indivisible step that stores
    [*addr + delta] (modulo 2^64) and returns the stored value.  The pair is
    (returned value, new content of [*addr]). *)
Definition atomic_AddUint64 (cell delta : Z) : Z * Z :=
  let new := wrap64 (cell + delta) in (new, new).

(** [func NextUID() uint64 { return atomic.AddUint64(&nextIteratorID, 1) - 1 }]
    as a function of the content of [nextIteratorID]; the subtraction is a
    [uint64] subtraction. *)
Definition NextUID (nextIteratorID : Z) : Z * Z :=
  let '(new, cell) := atomic_AddUint64 nextIteratorID 1 in
  (wrap64 (new - 1), cell).

(** [n] calls of [NextUID] one after the other (whichever goroutines issue
    them: the atomic add makes every execution a sequence of whole calls).
    Returns the identifiers in the order of the calls, and the counter. *)
Fixpoint NextUID_calls (n : nat) (nextIteratorID : Z) : list Z * Z :=
  match n with
  | O => ([], nextIteratorID)
  | S n' =>
      let '(id, cell) := NextUID nextIteratorID in
      let '(ids, cell') := NextUID_calls n' cell in
      (id :: ids, cell')
  end.

(** ** Strings and memory *)

(** The largest value of Go's [int] on the 64-bit platforms. *)
Definition max_int : Z := 2 ^ 63 - 1.

(** [n] copies of [s] one after the other. *)
Fixpoint string_copies (n : nat) (s : string) : string :=
  match n with
  | O => ""
  | S n' => s +:+ string_copies n' s
  end.

Section Runtime.

(** Whether the Go runtime provides the memory for a new string of [n]
    bytes.  What it provides depends on the platform and on the state of the
    process, and is left open. *)
Variable allocates : Z → bool.

(** A string built in new memory.  No string comes back ([None]) when the
    runtime does not provide the memory: the call panics (a length out of
    range) or the process stops (out of memory). *)
Definition new_string (s : string) : option string :=
  if allocates (Z.of_nat (String.length s)) then Some s else None.

(** [strings.Repeat(s, count)] of the Go library: [count] copies of [s] in
    new memory of [len(s) * count] bytes.  It panics on a negative [count]
    and on a length that overflows [int]. *)
Definition strings_Repeat (s : string) (count : Z) : option string :=
  let n := Z.of_nat (String.length s) * count in
  if decide (count < 0) then None
  else if decide (max_int < n) then None
  else if allocates n then Some (string_copies (Z.to_nat count) s)
  else None.

End Runtime.

(** The oracle of a process with memory to spare on a platform whose
    runtime refuses lengths over [limit]. *)
Definition allocates_up_to (limit : Z) (n : Z) : bool :=
  bool_decide (0 <= n <= limit).

(** Pointers to [Null] values. *)
Abbreviation loc := positive (only parsing).

Section Iterator.

(** The dynamic contents a [graph.Value] (Go's [interface{}]) can hold are
    left open. *)
Context {V : Type}.

(** ** Package [graph]: the types the file imports *)

(** [graph.Value] is an interface value: nil, or some dynamic value. *)
Inductive Value : Type :=
  | Nil
  | Dyn (v : V).

(** Modelled from the spec: the declaration of [graph.IteratorStats] is not
    in the file; it is the cost triple of three [int64] fields (check-cost,
    next-cost, size estimate). *)
Record IteratorStats : Type := mkStats {
  CheckCost : Z;
  NextCost : Z;
  Size : Z
}.

(** Modelled from the spec: the declaration of [graph.Tagger] is not in the
    file; it is the tag registry, holding the dynamic tag names in the order
    of their registration ([Tags()]) and the fixed bindings ([Fixed()]).
    [Add] and [AddFixed] are its two registration methods. *)
Record Tagger : Type := mkTagger {
  Tags : list string;
  Fixed : gmap string Value
}.

Definition Tagger_zero : Tagger := {| Tags := []; Fixed := ∅ |}.

Definition Tagger_Add (t : Tagger) (tag : string) : Tagger :=
  {| Tags := Tags t ++ [tag]; Fixed := Fixed t |}.

Definition Tagger_AddFixed (t : Tagger) (tag : string) (value : Value) : Tagger :=
  {| Tags := Tags t; Fixed := <[tag := value]> (Fixed t) |}.

(** Modelled from the spec: [graph.Type] is the discriminant naming the
    concrete kind; the kind this file returns, [graph.Null], is registered
    under the name "null". *)
Definition graph_Type := string.
Definition graph_Null : graph_Type := "null"%string.

(** ** [Base] *)

Record Base : Type := mkBase {
  Last : Value;
  canNext : bool
}.

(** The zero value of the struct. *)
Definition Base_zero : Base := {| Last := Nil; canNext := false |}.

Definition BaseInit (it : Base) : Base :=
  {| Last := Last it; canNext := true |}.

Definition Base_Check (it : Base) (v : Value) : bool * Base := (false, it).

Definition Base_Stats (it : Base) : IteratorStats :=
  mkStats 100000 100000 100000.

Definition Base_Next (it : Base) : (Value * bool) * Base := ((Nil, false), it).

Definition Base_NextResult (it : Base) : bool * Base := (false, it).

Definition Base_Result (it : Base) : Value := Last it.

Definition Base_Size (it : Base) : Z * bool := (0, true).

Definition Base_CanNext (it : Base) : bool := canNext it.

Definition Base_Reset (it : Base) : Base := it.

(** ** [Null] *)

Record Null : Type := mkNull {
  Null_Base : Base;
  uid : Z;
  tags : Tagger
}.

(** A method of the embedded [Base] called on a [Null]: the call
    [it.m()] is [(&it.Base).m()]. *)
Definition promoted {A : Type} (m : Base → A * Base) (it : Null) : A * Null :=
  let '(r, b) := m (Null_Base it) in
  (r, {| Null_Base := b; uid := uid it; tags := tags it |}).

Definition Null_Check (it : Null) (v : Value) : bool * Null :=
  promoted (λ b, Base_Check b v) it.

Definition Null_Next (it : Null) : (Value * bool) * Null :=
  promoted Base_Next it.

Definition Null_NextResult (it : Null) : bool * Null :=
  promoted Base_NextResult it.

Definition Null_Result (it : Null) : Value := Base_Result (Null_Base it).

Definition Null_CanNext (it : Null) : bool := Base_CanNext (Null_Base it).

Definition Null_Close (it : Null) : Null := it.

Definition Null_UID (it : Null) : Z := uid it.

(** [it.Tagger()] hands out [&it.tags]; a registration made through that
    pointer updates the field. *)
Definition Null_Tagger (f : Tagger → Tagger) (it : Null) : Null :=
  {| Null_Base := Null_Base it; uid := uid it; tags := f (tags it) |}.

Definition Null_Type (it : Null) : graph_Type := graph_Null.

(** [return graph.IteratorStats{}]: the zero value of the struct. *)
Definition Null_Stats (it : Null) : IteratorStats := mkStats 0 0 0.

(** *** [TagResults]

    [dst] is the caller's map, a map the caller made (a store into a nil
    map panics in Go; the registry contract hands over a map to fill).  The
    first loop runs over the slice
    [it.tags.Tags()] in order; the second ranges over the map
    [it.tags.Fixed()], in an order Go leaves unspecified: [range_Fixed]
    takes the order of the visit as a list of the map's entries. *)
Definition range_Tags (it : Null) (dst : gmap string Value) : gmap string Value :=
  foldl (λ d tag, <[tag := Null_Result it]> d) dst (Tags (tags it)).

Definition range_Fixed (visit : list (string * Value)) (dst : gmap string Value)
  : gmap string Value :=
  foldl (λ d kv, <[kv.1 := kv.2]> d) dst visit.

Definition Null_TagResults_visiting (visit : list (string * Value))
    (it : Null) (dst : gmap string Value) : gmap string Value :=
  range_Fixed visit (range_Tags it dst).

Definition Null_TagResults (it : Null) (dst : gmap string Value) : gmap string Value :=
  Null_TagResults_visiting (map_to_list (Fixed (tags it))) it dst.

(** ** The world: the package variable and the heap of [Null] values *)

Record World : Type := mkWorld {
  nextIteratorID : Z;
  heap : gmap loc Null
}.

(** The state at process start. *)
Definition World_init : World := {| nextIteratorID := 0; heap := ∅ |}.

Definition Exec (A : Type) : Type := World → option (A * World).

Definition ret {A : Type} (a : A) : Exec A := λ w, Some (a, w).

Definition bind {A B : Type} (m : Exec A) (k : A → Exec B) : Exec B :=
  λ w, match m w with
       | Some (a, w') => k a w'
       | None => None
       end.

(** The call [NextUID()] in the world. *)
Definition Exec_NextUID : Exec Z :=
  λ w, let '(id, cell) := NextUID (nextIteratorID w) in
       Some (id, {| nextIteratorID := cell; heap := heap w |}).

(** [&Null{...}]: a new object at an address no live object has. *)
Definition alloc (it : Null) : Exec loc :=
  λ w, let p := fresh (dom (heap w)) in
       Some (p, {| nextIteratorID := nextIteratorID w; heap := <[p := it]> (heap w) |}).

(** [p.m(...)] for a method [m] of the traversal protocol: load the
    receiver, run the body, store the receiver back. *)
Definition invoke {A : Type} (p : loc) (m : Null → A * Null) : Exec A :=
  λ w, match heap w !! p with
       | Some it =>
           let '(r, it') := m it in
           Some (r, {| nextIteratorID := nextIteratorID w; heap := <[p := it']> (heap w) |})
       | None => None
       end.

(** The composite literal [Null{uid: id}]: every field but [uid] has its
    zero value. *)
Definition Null_literal (id : Z) : Null :=
  {| Null_Base := Base_zero; uid := id; tags := Tagger_zero |}.

(** [func NewNull() *Null { return &Null{uid: NextUID()} }] *)
Definition NewNull : Exec loc :=
  bind Exec_NextUID (λ id, alloc (Null_literal id)).

(** [func (it *Null) Clone() graph.Iterator { return NewNull() }] *)
Definition Null_Clone (it : loc) : Exec loc := NewNull.

(** [func (it *Null) Optimize() (graph.Iterator, bool) { return it, false }] *)
Definition Null_Optimize (it : loc) : Exec (loc * bool) := ret (it, false).

(** ** Sequences of traversal calls *)

(** A call of the traversal protocol on a [Null], and what a call returned. *)
Inductive Call : Type :=
  | CallCheck (v : Value)
  | CallNext
  | CallNextResult.

Inductive Outcome : Type :=
  | Checked (ok : bool)
  | Nexted (v : Value) (ok : bool)
  | NextResulted (ok : bool).

Definition Null_call (c : Call) (it : Null) : Outcome * Null :=
  match c with
  | CallCheck v => let '(ok, it') := Null_Check it v in (Checked ok, it')
  | CallNext => let '((v, ok), it') := Null_Next it in (Nexted v ok, it')
  | CallNextResult => let '(ok, it') := Null_NextResult it in (NextResulted ok, it')
  end.

(** The calls [cs] made one after the other on the same receiver. *)
Fixpoint Null_calls (cs : list Call) (it : Null) : list Outcome * Null :=
  match cs with
  | [] => ([], it)
  | c :: cs' =>
      let '(o, it') := Null_call c it in
      let '(os, it'') := Null_calls cs' it' in
      (o :: os, it'')
  end.

(** The outcome reports no match: [false], and for [Next] no value. *)
Definition reports_failure (o : Outcome) : Prop :=
  match o with
  | Checked ok | NextResulted ok => ok = false
  | Nexted v ok => v = Nil ∧ ok = false
  end.

(** [n] calls of a [Next] method one after the other on the same receiver. *)
Fixpoint Next_times {T : Type} (next : T → (Value * bool) * T) (n : nat) (it : T)
  : list (Value * bool) * T :=
  match n with
  | O => ([], it)
  | S n' =>
      let '(r, it') := next it in
      let '(rs, it'') := Next_times next n' it' in
      (r :: rs, it'')
  end.

(** ** Runs of the program *)

(** The world a computation leaves behind (the world it started in when it
    panics). *)
Definition after {A : Type} (m : Exec A) (w : World) : World :=
  match m w with
  | Some (_, w') => w'
  | None => w
  end.

(** The world after [n] more calls of [NewNull]. *)
Definition NewNull_times (n : N) (w : World) : World :=
  N.iter n (after NewNull) w.

(** Every identifier a live [Null] carries was handed out by the counter,
    which has not wrapped around since. *)
Definition World_ok (w : World) : Prop :=
  is_uint64 (nextIteratorID w) ∧
  ∀ p it, heap w !! p = Some it → 0 <= uid it < nextIteratorID w.

(** [p.m()] for a method [m] that only reads the receiver. *)
Definition peek {A : Type} (p : loc) (m : Null → A) : Exec A :=
  invoke p (λ it, (m it, it)).

(** The scenario of the specification: make a [Null], call [Next], [Check]
    and [Stats] on it, clone it, and read the clone's type and the two
    identifiers. *)
Definition scenario (anything : Value)
  : Exec ((Value * bool) * bool * IteratorStats * graph_Type * Z * Z) :=
  bind NewNull (λ it,
  bind (invoke it Null_Next) (λ next,
  bind (invoke it (λ n, Null_Check n anything)) (λ check,
  bind (peek it Null_Stats) (λ stats,
  bind (Null_Clone it) (λ clone,
  bind (peek clone Null_Type) (λ type,
  bind (peek it Null_UID) (λ id,
  bind (peek clone Null_UID) (λ id',
  ret (next, check, stats, type, id, id'))))))))).

(** ** The rest of the method set *)

(** The runtime's memory oracle, see [new_string]. *)
Variable allocates : Z → bool.

(** [fmt.Sprintf("%s(base)", strings.Repeat(" ", indent))]: the argument is
    evaluated first, then the formatted string is built. *)
Definition Base_DebugString (it : Base) (indent : Z) : option string :=
  match strings_Repeat allocates " " indent with
  | Some pad => new_string allocates (pad +:+ "(base)")
  | None => None
  end.

(** [return nil]: no sub-iterators. *)
Definition Base_SubIterators (it : Base) : list loc := [].

(** [strings.Repeat(" ", indent) + "(null)"] *)
Definition Null_DebugString (it : Null) (indent : Z) : option string :=
  match strings_Repeat allocates " " indent with
  | Some pad => new_string allocates (pad +:+ "(null)")
  | None => None
  end.

Definition Null_Size (it : Null) : Z * bool := Base_Size (Null_Base it).

Definition Null_SubIterators (it : Null) : list loc :=
  Base_SubIterators (Null_Base it).

Definition Null_Reset (it : Null) : Null :=
  {| Null_Base := Base_Reset (Null_Base it); uid := uid it; tags := tags it |}.

(** [BaseInit(&it.Base)], the call a constructor makes on the embedded
    [Base]. *)
Definition Null_BaseInit (it : Null) : Null :=
  {| Null_Base := BaseInit (Null_Base it); uid := uid it; tags := tags it |}.

(** *** [TagResults] into a map that may be nil

    A Go map value is nil ([None]) or a map made by [make] or a literal.
    [dst[k] = x] panics when [dst] is nil. *)
Definition map_store (dst : option (gmap string Value)) (k : string) (x : Value)
  : option (option (gmap string Value)) :=
  match dst with
  | Some m => Some (Some (<[k := x]> m))
  | None => None
  end.

(** The stores of a loop, one after the other, up to the first panic. *)
Fixpoint map_stores (kvs : list (string * Value)) (dst : option (gmap string Value))
  : option (option (gmap string Value)) :=
  match kvs with
  | [] => Some dst
  | kv :: kvs' =>
      match map_store dst kv.1 kv.2 with
      | Some dst' => map_stores kvs' dst'
      | None => None
      end
  end.

(** The two loops of [TagResults]: [dst[tag] = it.Result()] for every
    dynamic tag, then [dst[tag] = value] for every fixed one. *)
Definition Null_TagResults_into (it : Null) (dst : option (gmap string Value))
  : option (option (gmap string Value)) :=
  match map_stores ((λ tag, (tag, Null_Result it)) <$> Tags (tags it)) dst with
  | Some dst' => map_stores (map_to_list (Fixed (tags it))) dst'
  | None => None
  end.

(** The names [TagResults] writes. *)
Definition tag_names (it : Null) : gset string :=
  list_to_set (Tags (tags it)) ∪ dom (Fixed (tags it)).

(** The methods of a [Null] that are given the receiver only, with their
    arguments, and what they return. *)
Inductive Method : Type :=
  | MCheck (v : Value)
  | MNext
  | MNextResult
  | MResult
  | MSize
  | MCanNext
  | MReset
  | MClose
  | MUID
  | MType
  | MStats
  | MSubIterators
  | MTagResults (dst : option (gmap string Value))
  | MDebugString (indent : Z).

Inductive Answer : Type :=
  | ABool (b : bool)
  | ANext (v : Value) (ok : bool)
  | AValue (v : Value)
  | ASize (n : Z) (exact : bool)
  | ANone
  | AUID (id : Z)
  | AType (t : graph_Type)
  | AStats (s : IteratorStats)
  | AIterators (subs : list loc)
  | ATags (dst : option (gmap string Value))
  | AString (s : string).

(** One call on a live receiver: the answer and the receiver afterwards, or
    [None] when the call does not return. *)
Definition Null_method (m : Method) (it : Null) : option (Answer * Null) :=
  match m with
  | MCheck v => let '(ok, it') := Null_Check it v in Some (ABool ok, it')
  | MNext => let '((v, ok), it') := Null_Next it in Some (ANext v ok, it')
  | MNextResult => let '(ok, it') := Null_NextResult it in Some (ABool ok, it')
  | MResult => Some (AValue (Null_Result it), it)
  | MSize => let '(n, exact) := Null_Size it in Some (ASize n exact, it)
  | MCanNext => Some (ABool (Null_CanNext it), it)
  | MReset => Some (ANone, Null_Reset it)
  | MClose => Some (ANone, Null_Close it)
  | MUID => Some (AUID (Null_UID it), it)
  | MType => Some (AType (Null_Type it), it)
  | MStats => Some (AStats (Null_Stats it), it)
  | MSubIterators => Some (AIterators (Null_SubIterators it), it)
  | MTagResults dst =>
      match Null_TagResults_into it dst with
      | Some dst' => Some (ATags dst', it)
      | None => None
      end
  | MDebugString indent =>
      match Null_DebugString it indent with
      | Some s => Some (AString s, it)
      | None => None
      end
  end.

(** The calls [ms] one after the other on the same receiver, up to the
    first that does not return. *)
Fixpoint Null_methods (ms : list Method) (it : Null) : option (list Answer * Null) :=
  match ms with
  | [] => Some ([], it)
  | m :: ms' =>
      match Null_method m it with
      | Some (a, it') =>
          match Null_methods ms' it' with
          | Some (answers, it'') => Some (a :: answers, it'')
          | None => None
          end
      | None => None
      end
  end.

(** The calls that do not return on the receiver [it]: [DebugString] with a
    negative indent, with an indent beyond [int], or with one for which the
    runtime does not provide the memory of the padding or of the result;
    [TagResults] into a nil map when the receiver has a tag to write. *)
Definition panics (it : Null) (m : Method) : bool :=
  match m with
  | MDebugString indent =>
      bool_decide (indent < 0) || bool_decide (max_int < indent) ||
      negb (allocates indent) || negb (allocates (indent + 6))
  | MTagResults None => negb (bool_decide (tag_names it = ∅))
  | _ => false
  end.

(** What a user does with a [Null] between its construction and
    [TagResults]: traversal calls, and registrations through the pointer
    [Tagger()] returns. *)
Inductive Use : Type :=
  | UseCall (c : Call)
  | UseTagger (f : Tagger → Tagger).

Definition Null_use (u : Use) (it : Null) : Null :=
  match u with
  | UseCall c => (Null_call c it).2
  | UseTagger f => Null_Tagger f it
  end.

Definition Null_uses (us : list Use) (it : Null) : Null :=
  foldl (λ n u, Null_use u n) it us.

(** The worlds a process gets to from its start, with the number of [Null]
    values it has constructed on the way: by [NewNull], [Clone], traversal
    calls and registrations. *)
Inductive Constructed : nat → World → Prop :=
  | Constructed_start : Constructed 0 World_init
  | Constructed_NewNull k w p w' :
      Constructed k w → NewNull w = Some (p, w') → Constructed (S k) w'
  | Constructed_Clone k w p c w' :
      Constructed k w → Null_Clone p w = Some (c, w') → Constructed (S k) w'
  | Constructed_call k w p (c : Call) r w' :
      Constructed k w → invoke p (Null_call c) w = Some (r, w') →
      Constructed k w'
  | Constructed_Tagger k w p (f : Tagger → Tagger) w' :
      Constructed k w →
      invoke p (λ it, (tt, Null_Tagger f it)) w = Some (tt, w') →
      Constructed k w'.

End Iterator.


(** * Properties *)

(** ** The UID counter *)

Lemma uint64_modulus_pos : 0 < uint64_modulus.
Proof. reflexivity. Qed.

Lemma wrap64_range z : is_uint64 (wrap64 z).
Proof. apply Z.mod_pos_bound, uint64_modulus_pos. Qed.

Lemma wrap64_small z : is_uint64 z → wrap64 z = z.
Proof. intros Hz. apply Z.mod_small, Hz. Qed.

Lemma wrap64_add_l a b : wrap64 (wrap64 a + b) = wrap64 (a + b).
Proof. apply Zplus_mod_idemp_l. Qed.

(** Two offsets below 2^64 from the same counter wrap to the same value
    only when they are equal. *)
Lemma wrap64_offset_inj s i j :
  0 <= i < uint64_modulus → 0 <= j < uint64_modulus →
  wrap64 (s + i) = wrap64 (s + j) → i = j.
Proof.
  unfold wrap64. intros Hi Hj Heq.
  pose proof uint64_modulus_pos as HM.
  pose proof (Z.div_mod (s + i) uint64_modulus ltac:(lia)) as Ei.
  pose proof (Z.div_mod (s + j) uint64_modulus ltac:(lia)) as Ej.
  rewrite Heq in Ei.
  set (qi := (s + i) / uint64_modulus) in *.
  set (qj := (s + j) / uint64_modulus) in *.
  assert (i - j = uint64_modulus * (qi - qj)) as E by lia.
  assert (qi - qj = 0) by nia.
  lia.
Qed.

(** [NextUID] hands out the content of the counter and stores its
    successor modulo 2^64. *)
Lemma NextUID_returns_old s :
  is_uint64 s → NextUID s = (s, wrap64 (s + 1)).
Proof.
  intros Hs. unfold NextUID, atomic_AddUint64. f_equal.
  unfold wrap64 at 1 2. rewrite Zminus_mod_idemp_l.
  replace (s + 1 - 1) with s by lia. apply wrap64_small, Hs.
Qed.

Lemma NextUID_calls_S n s :
  NextUID_calls (S n) s =
  ((NextUID s).1 :: (NextUID_calls n (NextUID s).2).1,
   (NextUID_calls n (NextUID s).2).2).
Proof.
  change (NextUID_calls (S n) s) with
    (let '(id, cell) := NextUID s in
     let '(ids, cell') := NextUID_calls n cell in (id :: ids, cell')).
  destruct (NextUID s) as [id cell]. simpl.
  by destruct (NextUID_calls n cell).
Qed.

Lemma NextUID_calls_length n s : length (NextUID_calls n s).1 = n.
Proof.
  revert s. induction n as [|n IH]; intros s; [done|].
  rewrite NextUID_calls_S. simpl. by rewrite IH.
Qed.

(** The [i]-th of [n] calls returns the counter's first content plus [i],
    modulo 2^64. *)
Lemma NextUID_calls_lookup n s (i : nat) :
  is_uint64 s → (i < n)%nat →
  (NextUID_calls n s).1 !! i = Some (wrap64 (s + Z.of_nat i)).
Proof.
  revert s i. induction n as [|n IH]; intros s i Hs Hi; [lia|].
  rewrite NextUID_calls_S, (NextUID_returns_old s Hs).
  destruct i as [|i]; simpl.
  - rewrite Z.add_0_r. by rewrite wrap64_small.
  - rewrite (IH _ i (wrap64_range _) ltac:(lia)).
    rewrite wrap64_add_l. do 2 f_equal. lia.
Qed.

Lemma NextUID_calls_counter n s :
  is_uint64 s → (NextUID_calls n s).2 = wrap64 (s + Z.of_nat n).
Proof.
  revert s. induction n as [|n IH]; intros s Hs.
  - simpl. rewrite Z.add_0_r. by rewrite wrap64_small.
  - rewrite NextUID_calls_S, (NextUID_returns_old s Hs). simpl.
    rewrite (IH _ (wrap64_range _)), wrap64_add_l. f_equal. lia.
Qed.

(** C6 (as the code has it).  The counter is a [uint64]: whatever it
    holds, up to 2^64 calls of [NextUID] in a row return as many pairwise
    distinct identifiers, and as long as the counter does not pass 2^64 (so
    for the first 2^64 calls of a process, which starts it at 0) a later call
    returns a strictly larger identifier than an earlier one. *)
Theorem NextUID_distinct_and_increasing (s : Z) (n : nat) :
  is_uint64 s → Z.of_nat n <= uint64_modulus →
  let ids := (NextUID_calls n s).1 in
  length ids = n ∧
  NoDup ids ∧
  (s + Z.of_nat n <= uint64_modulus →
   ∀ (i j : nat) (a b : Z),
     (i < j)%nat → ids !! i = Some a → ids !! j = Some b → a < b).
Proof.
  intros Hs Hn ids. subst ids.
  pose proof (NextUID_calls_length n s) as Hlen.
  split; [exact Hlen|]. split.
  - apply NoDup_alt. intros i j x Hi Hj.
    pose proof (lookup_lt_Some _ _ _ Hi) as Li.
    pose proof (lookup_lt_Some _ _ _ Hj) as Lj.
    rewrite Hlen in Li, Lj.
    rewrite NextUID_calls_lookup in Hi by (done || lia).
    rewrite NextUID_calls_lookup in Hj by (done || lia).
    assert (Z.of_nat i = Z.of_nat j) as E; [|lia].
    apply (wrap64_offset_inj s); [lia | lia | congruence].
  - intros Hfit i j a b Hij Hi Hj.
    pose proof (lookup_lt_Some _ _ _ Hj) as Lj. rewrite Hlen in Lj.
    rewrite NextUID_calls_lookup in Hi by (done || lia).
    rewrite NextUID_calls_lookup in Hj by (done || lia).
    unfold is_uint64 in Hs.
    rewrite wrap64_small in Hi by (unfold is_uint64; lia).
    rewrite wrap64_small in Hj by (unfold is_uint64; lia).
    simplify_eq. lia.
Qed.

Lemma NextUID_distinct_and_increasing_witness :
  let ids := (NextUID_calls 3 0).1 in
  length ids = 3%nat ∧
  NoDup ids ∧
  (0 + Z.of_nat 3 <= uint64_modulus →
   ∀ (i j : nat) (a b : Z),
     (i < j)%nat → ids !! i = Some a → ids !! j = Some b → a < b).
Proof.
  apply (NextUID_distinct_and_increasing 0 3).
  - unfold is_uint64, uint64_modulus. lia.
  - unfold uint64_modulus. lia.
Defined.

(** The three first identifiers of a process. *)
Example NextUID_calls_from_start : NextUID_calls 3 0 = ([0; 1; 2], 3).
Proof. reflexivity. Qed.

(** The last identifier before the counter wraps, and the two after it. *)
Example NextUID_calls_across_wrap :
  NextUID_calls 3 18446744073709551615 = ([18446744073709551615; 0; 1], 2).
Proof. reflexivity. Qed.

(** C6 as stated fails: the call number 2^64 + 1 of a process returns 0, the
    identifier its first call returned, so 2^64 + 1 calls do not yield
    pairwise distinct identifiers. *)
Lemma NextUID_repeats_after_wrap :
  let n := S (Z.to_nat uint64_modulus) in
  let ids := (NextUID_calls n 0).1 in
  length ids = n ∧
  ids !! 0%nat = Some 0 ∧
  ids !! Z.to_nat uint64_modulus = Some 0 ∧
  ¬ NoDup ids.
Proof.
  intros n ids.
  pose proof uint64_modulus_pos as HM.
  assert (is_uint64 0) as H0 by (unfold is_uint64; lia).
  assert (ids !! 0%nat = Some 0) as Hfirst.
  { subst ids n. rewrite (NextUID_calls_lookup _ 0 0 H0 (Nat.lt_0_succ _)).
    reflexivity. }
  assert (ids !! Z.to_nat uint64_modulus = Some 0) as Hlast.
  { subst ids n. rewrite (NextUID_calls_lookup _ 0 _ H0 (Nat.lt_succ_diag_r _)).
    rewrite Z.add_0_l, Z2Nat.id by lia. reflexivity. }
  split; [apply NextUID_calls_length|].
  split; [exact Hfirst|]. split; [exact Hlast|].
  intros Hnd.
  pose proof (proj1 (NoDup_alt ids) Hnd _ _ _ Hfirst Hlast) as Hsame. lia.
Qed.

Section Properties.

Context {V : Type}.
Implicit Types (it : @Null V) (b : @Base V) (v : @Value V) (w : @World V).
Implicit Types (dst : gmap string (@Value V)) (p c : loc).

(** ** Traversal of [Base] and [Null] *)

Lemma promoted_unchanged {A : Type} (m : Base → A * Base) (r : A) it :
  m (Null_Base it) = (r, Null_Base it) → promoted m it = (r, it).
Proof. intros Hm. unfold promoted. rewrite Hm. by destruct it. Qed.

Lemma Null_Check_unchanged it v : Null_Check it v = (false, it).
Proof. by apply promoted_unchanged. Qed.

Lemma Null_Next_unchanged it : Null_Next it = ((Nil, false), it).
Proof. by apply promoted_unchanged. Qed.

Lemma Null_NextResult_unchanged it : Null_NextResult it = (false, it).
Proof. by apply promoted_unchanged. Qed.

Lemma Null_call_unchanged (call : Call) it :
  reports_failure (Null_call call it).1 ∧ (Null_call call it).2 = it.
Proof.
  destruct call as [v| |]; unfold Null_call.
  - by rewrite Null_Check_unchanged.
  - by rewrite Null_Next_unchanged.
  - by rewrite Null_NextResult_unchanged.
Qed.

Lemma Null_calls_unchanged (cs : list Call) it :
  Forall reports_failure (Null_calls cs it).1 ∧ (Null_calls cs it).2 = it.
Proof.
  induction cs as [|call cs IH]; [by split; [constructor|]|].
  destruct (Null_call_unchanged call it) as [Hfail Hit].
  cbn [Null_calls]. destruct (Null_call call it) as [o it']. simpl in Hfail, Hit.
  subst it'. destruct (Null_calls cs it) as [os it'']. simpl in IH |- *.
  destruct IH as [Hos ->]. split; [by constructor|done].
Qed.

(** What [NewNull] does to the world: one identifier taken, one object
    made at a new address. *)
Lemma NewNull_run w :
  NewNull w =
  Some (fresh (dom (heap w)),
        {| nextIteratorID := (NextUID (nextIteratorID w)).2;
           heap := <[fresh (dom (heap w)) := Null_literal (NextUID (nextIteratorID w)).1]>
                     (heap w) |}).
Proof.
  unfold NewNull, bind, Exec_NextUID, alloc.
  by destruct (NextUID (nextIteratorID w)) as [id cell].
Qed.

Lemma NewNull_fresh w : heap w !! fresh (dom (heap w)) = None.
Proof. apply not_elem_of_dom, is_fresh. Qed.

(** C1.  On a [Null], [Check] of any value returns false, [Next] returns no
    value and false, [NextResult] returns false, and each leaves the receiver
    as it was; so after any sequence of these calls every outcome reported
    failure and [Last] is what it was before, which for an iterator made by
    [NewNull] is nil. *)
Theorem Null_traversal_reports_failure it v (cs : list Call) w :
  Null_Check it v = (false, it) ∧
  Null_Next it = ((Nil, false), it) ∧
  Null_NextResult it = (false, it) ∧
  Forall reports_failure (Null_calls cs it).1 ∧
  Last (Null_Base (Null_calls cs it).2) = Last (Null_Base it) ∧
  ∃ p w' it0,
    NewNull w = Some (p, w') ∧ heap w' !! p = Some it0 ∧
    Last (Null_Base it0) = Nil ∧
    Last (Null_Base (Null_calls cs it0).2) = Nil.
Proof.
  split; [apply Null_Check_unchanged|].
  split; [apply Null_Next_unchanged|].
  split; [apply Null_NextResult_unchanged|].
  destruct (Null_calls_unchanged cs it) as [Hfail Hit].
  split; [exact Hfail|]. split; [by rewrite Hit|].
  eexists _, _, _. split; [apply NewNull_run|]. simpl.
  split; [apply lookup_insert_eq|].
  split; [done|]. by rewrite (proj2 (Null_calls_unchanged cs _)).
Qed.

Lemma Next_times_exhausted {T : Type} (next : T → (@Value V * bool) * T) (n : nat) (x : T) :
  (∀ y, next y = ((Nil, false), y)) →
  Forall (λ r, r = (Nil, false)) (Next_times next n x).1 ∧ (Next_times next n x).2 = x.
Proof.
  intros Hnext. induction n as [|n IH]; [by split; [constructor|]|].
  cbn [Next_times]. rewrite Hnext.
  destruct (Next_times next n x) as [rs x']. simpl in IH |- *.
  destruct IH as [Hrs ->]. split; [by constructor|done].
Qed.

(** C9.  Every [Next] of a [Base] and of a [Null] returns exhaustion, no
    value with ok=false, and leaves the receiver as it was: in a run of calls
    every call after one that returned exhaustion returns exhaustion too. *)
Theorem Next_exhaustion_is_idempotent b it (n : nat) :
  let base_run := (Next_times Base_Next n b).1 in
  let null_run := (Next_times Null_Next n it).1 in
  Forall (λ r, r = (Nil, false)) base_run ∧
  Forall (λ r, r = (Nil, false)) null_run ∧
  (∀ (i j : nat) r r', (i < j)%nat →
     base_run !! i = Some r → r.2 = false → base_run !! j = Some r' →
     r' = (Nil, false)) ∧
  (∀ (i j : nat) r r', (i < j)%nat →
     null_run !! i = Some r → r.2 = false → null_run !! j = Some r' →
     r' = (Nil, false)).
Proof.
  intros base_run null_run.
  assert (Forall (λ r, r = (@Nil V, false)) base_run) as Hb
    by (by apply Next_times_exhausted).
  assert (Forall (λ r, r = (@Nil V, false)) null_run) as Hn
    by (apply Next_times_exhausted, Null_Next_unchanged).
  split; [exact Hb|]. split; [exact Hn|].
  split; intros i j r r' _ _ _ Hj.
  - exact (proj1 (Forall_lookup _ _) Hb j r' Hj).
  - exact (proj1 (Forall_lookup _ _) Hn j r' Hj).
Qed.

(** ** Cost statistics *)

(** C4.  [Stats] of a [Null] is the cost triple with zero in each of its
    three fields. *)
Theorem Null_Stats_all_zero it :
  Null_Stats it = mkStats 0 0 0 ∧
  CheckCost (Null_Stats it) = 0 ∧
  NextCost (Null_Stats it) = 0 ∧
  Size (Null_Stats it) = 0.
Proof. by repeat split. Qed.

(** C5.  [Stats] of a [Base] is the cost triple with 100000 in each of its
    three fields. *)
Theorem Base_Stats_sentinel b :
  Base_Stats b = mkStats 100000 100000 100000 ∧
  CheckCost (Base_Stats b) = 100000 ∧
  NextCost (Base_Stats b) = 100000 ∧
  Size (Base_Stats b) = 100000.
Proof. by repeat split. Qed.

(** ** Construction *)

Lemma BaseInit_sets_canNext b :
  Base_CanNext (BaseInit b) = true ∧ Base_Result (BaseInit b) = Base_Result b.
Proof. done. Qed.

(** C3 (what the code does).  [NewNull] builds the struct literal and does
    not call [BaseInit]: the iterator it returns has no match, and its
    can-advance flag is false. *)
Theorem NewNull_leaves_canNext_false w :
  ∃ p w' it0,
    NewNull w = Some (p, w') ∧ heap w' !! p = Some it0 ∧
    Null_Result it0 = Nil ∧ Null_CanNext it0 = false.
Proof.
  eexists _, _, _. split; [apply NewNull_run|]. simpl.
  split; [apply lookup_insert_eq|]. done.
Qed.

(** ** [Optimize] *)

(** C8.  [Optimize] of a [Null] returns the receiver and false, in every
    world, and changes nothing: a call made through the replacement is the
    call made through the receiver. *)
Theorem Null_Optimize_returns_self p w :
  Null_Optimize p w = Some ((p, false), w) ∧
  ∀ (A : Type) (m : Null → A * Null),
    bind (Null_Optimize p) (λ r, invoke r.1 m) w = invoke p m w.
Proof. split; [reflexivity|]. intros A m. reflexivity. Qed.

(** ** [TagResults] *)

Lemma foldl_insert_same_lookup (x : @Value V) (l : list string) dst (tag : string) :
  foldl (λ d t, <[t := x]> d) dst l !! tag =
  if decide (tag ∈ l) then Some x else dst !! tag.
Proof.
  revert dst. induction l as [|t ts IH]; intros dst; cbn [foldl].
  - rewrite decide_False; [done|apply not_elem_of_nil].
  - rewrite IH. destruct (decide (tag ∈ ts)) as [Hts|Hts].
    + rewrite decide_True; [done|by right].
    + destruct (decide (tag = t)) as [->|Hne].
      * rewrite lookup_insert_eq, decide_True; [done|by left].
      * rewrite lookup_insert_ne by done.
        rewrite decide_False; [done|]. by intros [?|?]%elem_of_cons.
Qed.

Lemma range_Tags_lookup it dst (tag : string) :
  range_Tags it dst !! tag =
  if decide (tag ∈ Tags (tags it)) then Some (Null_Result it) else dst !! tag.
Proof. apply foldl_insert_same_lookup. Qed.

Lemma range_Fixed_lookup (visit : list (string * @Value V)) dst (tag : string) :
  NoDup visit.*1 →
  range_Fixed visit dst !! tag =
  match (list_to_map visit : gmap string Value) !! tag with
  | Some value => Some value
  | None => dst !! tag
  end.
Proof.
  unfold range_Fixed. revert dst.
  induction visit as [|[k x] visit IH]; intros dst Hnd; [done|].
  apply NoDup_cons in Hnd as [Hk Hnd]. simpl.
  rewrite (IH _ Hnd), lookup_insert.
  destruct (decide (k = tag)) as [->|Hne].
  - by rewrite (not_elem_of_list_to_map_1 _ _ Hk), lookup_insert_eq.
  - by rewrite lookup_insert_ne by done.
Qed.

(** The entries of a map, visited in any order. *)
Lemma range_Fixed_any_order (fixed : gmap string (@Value V)) visit dst (tag : string) :
  visit ≡ₚ map_to_list fixed →
  range_Fixed visit dst !! tag =
  match fixed !! tag with Some value => Some value | None => dst !! tag end.
Proof.
  intros Hperm.
  assert (NoDup visit.*1) as Hnd
    by (rewrite Hperm; apply NoDup_fst_map_to_list).
  rewrite (range_Fixed_lookup _ _ _ Hnd).
  by rewrite (list_to_map_proper _ _ Hnd Hperm), list_to_map_to_list.
Qed.

Lemma Null_TagResults_visiting_lookup it dst visit (tag : string) :
  visit ≡ₚ map_to_list (Fixed (tags it)) →
  Null_TagResults_visiting visit it dst !! tag =
  match Fixed (tags it) !! tag with
  | Some value => Some value
  | None => if decide (tag ∈ Tags (tags it)) then Some (Null_Result it)
            else dst !! tag
  end.
Proof.
  intros Hperm. unfold Null_TagResults_visiting.
  by rewrite (range_Fixed_any_order _ _ _ _ Hperm), range_Tags_lookup.
Qed.

(** C2.  After [TagResults] the caller's map binds every fixed tag to its
    fixed value, every dynamic tag that is not also a fixed one to the
    receiver's [Result()], and every other key to what it was bound to
    before; the order in which the fixed map is ranged over makes no
    difference.  With the fixed tag x bound to [V1], the dynamic tag y and
    [Last = V2], the map afterwards sends y to [V2] and x to [V1]. *)
Theorem Null_TagResults_fixed_over_dynamic it dst :
  (∀ tag : string,
     Null_TagResults it dst !! tag =
     match Fixed (tags it) !! tag with
     | Some value => Some value
     | None => if decide (tag ∈ Tags (tags it)) then Some (Null_Result it)
               else dst !! tag
     end) ∧
  (∀ (tag : string) value,
     tag ∈ Tags (tags it) → Fixed (tags it) !! tag = Some value →
     Null_TagResults it dst !! tag = Some value) ∧
  (∀ visit, visit ≡ₚ map_to_list (Fixed (tags it)) →
     Null_TagResults_visiting visit it dst = Null_TagResults it dst) ∧
  (∀ (V1 V2 : Value) (id : Z) (flag : bool),
     let it' := {| Null_Base := {| Last := V2; canNext := flag |};
                   uid := id;
                   tags := {| Tags := ["y"%string];
                              Fixed := {["x"%string := V1]} |} |} in
     Null_TagResults it' dst !! "y"%string = Some V2 ∧
     Null_TagResults it' dst !! "x"%string = Some V1).
Proof.
  assert (∀ it0 tag, Null_TagResults it0 dst !! tag =
     match Fixed (tags it0) !! tag with
     | Some value => Some value
     | None => if decide (tag ∈ Tags (tags it0)) then Some (Null_Result it0)
               else dst !! tag
     end) as Hlookup
    by (intros; by apply Null_TagResults_visiting_lookup).
  split; [apply Hlookup|]. split; [|split].
  - intros tag value _ Hfixed. by rewrite Hlookup, Hfixed.
  - intros visit Hperm. apply map_eq. intros tag.
    by rewrite Hlookup, (Null_TagResults_visiting_lookup _ _ _ _ Hperm).
  - intros V1 V2 id flag it'. rewrite !Hlookup. subst it'.
    cbn [tags Fixed Tags Null_Result Base_Result Null_Base Last]. split.
    + rewrite lookup_singleton_ne by done.
      rewrite decide_True; [done|by left].
    + by rewrite lookup_singleton_eq.
Qed.

(** ** The heap: calls through pointers *)

Lemma invoke_run {A : Type} p (m : Null → A * Null) w it :
  heap w !! p = Some it →
  invoke p m w =
  Some ((m it).1,
        {| nextIteratorID := nextIteratorID w; heap := <[p := (m it).2]> (heap w) |}).
Proof. intros Hp. unfold invoke. rewrite Hp. by destruct (m it). Qed.

(** A call through [p] leaves the counter and every other object alone. *)
Lemma invoke_frame {A : Type} p (m : Null → A * Null) w (r : A) w' :
  invoke p m w = Some (r, w') →
  nextIteratorID w' = nextIteratorID w ∧
  ∀ q, q ≠ p → heap w' !! q = heap w !! q.
Proof.
  unfold invoke. destruct (heap w !! p) as [it|]; [|done].
  destruct (m it) as [r' it']. intros [= _ <-]. split; [done|].
  intros q Hq. simpl. by rewrite lookup_insert_ne.
Qed.

Lemma World_ok_init : World_ok (@World_init V).
Proof.
  split; [by unfold is_uint64, uint64_modulus|].
  intros p it Hp. cbn [World_init heap] in Hp. by rewrite lookup_empty in Hp.
Qed.

(** [NewNull] keeps the invariant up to the last identifier before the
    counter wraps around. *)
Lemma NewNull_World_ok w p w' :
  World_ok w → nextIteratorID w + 1 < uint64_modulus →
  NewNull w = Some (p, w') → World_ok w'.
Proof.
  intros [Hctr Hheap] Hroom.
  rewrite NewNull_run, (NextUID_returns_old _ Hctr). cbn [fst snd].
  unfold is_uint64 in Hctr.
  rewrite wrap64_small by (unfold is_uint64; lia).
  intros [= _ <-].
  split; [unfold is_uint64; simpl; lia|]. simpl.
  intros q it. rewrite lookup_insert. case_decide as Hq.
  - intros [= <-]. simpl. lia.
  - intros Hit. specialize (Hheap _ _ Hit). lia.
Qed.

(** So does a call that does not assign [uid], as none in the file does. *)
Lemma invoke_World_ok {A : Type} p (m : Null → A * Null) w (r : A) w' :
  (∀ it, uid (m it).2 = uid it) →
  World_ok w → invoke p m w = Some (r, w') → World_ok w'.
Proof.
  intros Hm [Hctr Hheap]. unfold invoke.
  destruct (heap w !! p) as [it|] eqn:Hp; [|done].
  specialize (Hm it). destruct (m it) as [r' it']. intros [= _ <-].
  split; [done|]. simpl. intros q it0. rewrite lookup_insert.
  case_decide as Hq.
  - intros [= <-]. simpl in Hm. rewrite Hm. by apply (Hheap p).
  - apply Hheap.
Qed.

Lemma after_NewNull w :
  after NewNull w =
  {| nextIteratorID := (NextUID (nextIteratorID w)).2;
     heap := <[fresh (dom (heap w)) := Null_literal (NextUID (nextIteratorID w)).1]>
               (heap w) |}.
Proof. unfold after. by rewrite NewNull_run. Qed.

(** The counter after [k] more calls of [NewNull], and an object that was
    there before them. *)
Lemma NewNull_times_run (k : N) w p it :
  is_uint64 (nextIteratorID w) → heap w !! p = Some it →
  nextIteratorID (NewNull_times k w) = wrap64 (nextIteratorID w + Z.of_N k) ∧
  heap (NewNull_times k w) !! p = Some it.
Proof.
  intros Hctr Hp. unfold NewNull_times.
  induction k as [|k IH] using N.peano_ind.
  - split; [|done]. cbn [N.iter Z.of_N]. rewrite Z.add_0_r. by rewrite wrap64_small.
  - rewrite N.iter_succ. destruct IH as [IHctr IHp].
    set (wk := N.iter k (after NewNull) w) in *.
    rewrite !after_NewNull. cbn [nextIteratorID heap].
    rewrite IHctr, (NextUID_returns_old _ (wrap64_range _)). cbn [fst snd].
    split.
    + rewrite wrap64_add_l. f_equal. lia.
    + rewrite lookup_insert_ne; [done|].
      intros Heq. pose proof (NewNull_fresh wk) as Hfresh.
      rewrite Heq, IHp in Hfresh. done.
Qed.

(** ** [Clone] *)

(** C7 (as the code has it).  For every [Null], [Clone] makes a new object
    of the same type "null", on which [Check], [Next] and [NextResult] return
    what they return on the receiver; the receiver is left as it was, and
    whatever a later call does to one of the two objects leaves the other as
    it was.  The clone's identifier is the value the counter holds: it
    differs from the receiver's exactly when the receiver's is not that
    value. *)
Theorem Null_Clone_new_identity_independent_state w p it :
  heap w !! p = Some it →
  ∃ c w' itc,
    Null_Clone p w = Some (c, w') ∧
    c ≠ p ∧ heap w' !! c = Some itc ∧ heap w' !! p = Some it ∧
    (is_uint64 (nextIteratorID w) →
     Null_UID itc = nextIteratorID w ∧
     (Null_UID it ≠ nextIteratorID w → Null_UID itc ≠ Null_UID it) ∧
     (Null_UID it = nextIteratorID w → Null_UID itc = Null_UID it)) ∧
    Null_Type itc = "null"%string ∧ Null_Type it = "null"%string ∧
    (∀ v, (Null_Check itc v).1 = (Null_Check it v).1) ∧
    (Null_Next itc).1 = (Null_Next it).1 ∧
    (Null_NextResult itc).1 = (Null_NextResult it).1 ∧
    (∀ (A : Type) (m : Null → A * Null) (r : A) w'',
       invoke c m w' = Some (r, w'') → heap w'' !! p = Some it) ∧
    (∀ (A : Type) (m : Null → A * Null) (r : A) w'',
       invoke p m w' = Some (r, w'') → heap w'' !! c = Some itc).
Proof.
  intros Hp.
  assert (fresh (dom (heap w)) ≠ p) as Hne.
  { intros Heq. pose proof (NewNull_fresh w) as Hfresh.
    rewrite Heq, Hp in Hfresh. done. }
  eexists _, _, _. split; [apply NewNull_run|]. cbn [heap].
  split; [exact Hne|].
  split; [apply lookup_insert_eq|].
  split; [by rewrite lookup_insert_ne|].
  split.
  { intros Hctr. unfold Null_UID. rewrite (NextUID_returns_old _ Hctr).
    cbn [fst Null_literal uid]. split; [done|]. split; [|done].
    intros Hdiff Heq. by apply Hdiff. }
  split; [done|]. split; [done|].
  split. { intros v. by rewrite !Null_Check_unchanged. }
  split. { by rewrite !Null_Next_unchanged. }
  split. { by rewrite !Null_NextResult_unchanged. }
  split.
  - intros A m r w'' Hcall.
    destruct (invoke_frame _ _ _ _ _ Hcall) as [_ Hframe].
    rewrite (Hframe p) by done. cbn [heap]. by rewrite lookup_insert_ne.
  - intros A m r w'' Hcall.
    destruct (invoke_frame _ _ _ _ _ Hcall) as [_ Hframe].
    rewrite Hframe by done. cbn [heap]. apply lookup_insert_eq.
Qed.

(** In a world that satisfies the invariant the identifier of every live
    [Null] lies below the counter, so its clone gets another one. *)
Lemma World_ok_receiver w p it :
  World_ok w → heap w !! p = Some it →
  is_uint64 (nextIteratorID w) ∧ uid it < nextIteratorID w.
Proof. intros [Hctr Hheap] Hp. split; [done|]. by apply (Hheap p). Qed.

(** C10.  The [Null] that [Clone] returns has the empty tag registry,
    whatever was registered on the receiver: [TagResults] on the clone leaves
    the caller's map as it was, while the receiver keeps its registry and
    [TagResults] on it binds each of its tags. *)
Theorem Null_Clone_drops_tags w p :
  ∃ c w' itc,
    Null_Clone p w = Some (c, w') ∧ heap w' !! c = Some itc ∧
    tags itc = Tagger_zero ∧
    (∀ dst, Null_TagResults itc dst = dst) ∧
    (∀ it, heap w !! p = Some it →
       heap w' !! p = Some it ∧
       ∀ dst (tag : string),
         tag ∈ Tags (tags it) ∨ is_Some (Fixed (tags it) !! tag) →
         is_Some (Null_TagResults it dst !! tag)).
Proof.
  eexists _, _, _. split; [apply NewNull_run|]. cbn [heap].
  split; [apply lookup_insert_eq|]. split; [done|]. split.
  - intros dst. unfold Null_TagResults, Null_TagResults_visiting, range_Tags.
    cbn [tags Null_literal Tagger_zero Tags Fixed].
    by rewrite map_to_list_empty.
  - intros it Hp. split.
    + rewrite lookup_insert_ne; [done|].
      intros Heq. pose proof (NewNull_fresh w) as Hfresh.
      rewrite Heq, Hp in Hfresh. done.
    + intros dst tag Htag. unfold Null_TagResults.
      rewrite (Null_TagResults_visiting_lookup it dst _ tag (reflexivity _)).
      destruct (Fixed (tags it) !! tag) as [value|] eqn:Hfixed; [by eexists|].
      destruct Htag as [Hdyn|[value Hvalue]]; [|done].
      rewrite decide_True by done. by eexists.
Qed.

End Properties.

(** * Instances *)

(** The scenario runs from process start without a panic: [Next] is
    exhausted, [Check] fails, the cost is the zero triple, the clone is a
    "null" and has the identifier after the receiver's. *)
Example scenario_from_start :
  fst <$> scenario (Dyn "anything"%string) World_init =
  Some ((Nil, false), false, mkStats 0 0 0, "null"%string, 0, 1).
Proof. reflexivity. Qed.

(** Tags registered through [Tagger()] reach the caller's map, the fixed
    value over the dynamic one for a tag registered as both. *)
Example TagResults_registered :
  let register (t : Tagger) :=
    Tagger_AddFixed (Tagger_AddFixed (Tagger_Add (Tagger_Add t "y") "x") "x" (Dyn 1)) "z" (Dyn 2) in
  Null_TagResults (Null_Tagger register (Null_literal 0)) {["y"%string := Dyn 7]} =
  {["x"%string := Dyn 1; "y"%string := Nil; "z"%string := Dyn 2]}.
Proof. vm_compute. reflexivity. Qed.

(** A [Null] with the dynamic tag y and the fixed tag x fills the caller's
    map; its clone, made afterwards, fills nothing. *)
Example TagResults_of_a_clone :
  fst <$> bind NewNull (λ it,
          bind (invoke it (λ n, (tt, Null_Tagger (λ t, Tagger_Add t "y") n))) (λ _,
          bind (invoke it (λ n, (tt, Null_Tagger (λ t, Tagger_AddFixed t "x" (Dyn 5)) n))) (λ _,
          bind (Null_Clone it) (λ clone,
          bind (peek it (λ n, Null_TagResults n ∅)) (λ dst,
          bind (peek clone (λ n, Null_TagResults n ∅)) (λ dst',
          ret (dst, dst'))))))) World_init =
  Some ({["x"%string := Dyn 5; "y"%string := Nil]}, ∅).
Proof. vm_compute. reflexivity. Qed.

(** [BaseInit] is what makes an iterator advance-capable. *)
Example BaseInit_of_zero_Base :
  Base_CanNext (@Base_zero Z) = false ∧ Base_CanNext (BaseInit (@Base_zero Z)) = true.
Proof. split; reflexivity. Qed.

Lemma Null_Clone_new_identity_independent_state_witness :
  let w : @World string :=
    {| nextIteratorID := 5; heap := {[1%positive := Null_literal 9]} |} in
  ∃ c w' itc,
    Null_Clone 1%positive w = Some (c, w') ∧
    c ≠ 1%positive ∧ heap w' !! c = Some itc ∧
    heap w' !! 1%positive = Some (Null_literal 9) ∧
    Null_UID itc = 5 ∧
    Null_UID itc ≠ Null_UID (@Null_literal string 9).
Proof.
  intros w.
  destruct (Null_Clone_new_identity_independent_state w 1%positive (Null_literal 9))
    as (c & w' & itc & Hrun & Hne & Hc & Hp & Huid & _).
  - reflexivity.
  - destruct Huid as (Hnew & Hdiff & _).
    + unfold is_uint64, uint64_modulus. simpl. lia.
    + exists c, w', itc. repeat split; try assumption.
      apply Hdiff. simpl. lia.
Defined.

(** C7 as stated fails.  First, a zero-value [Null] (never given an
    identifier, so its [uid] is 0) cloned at process start gets a clone with
    the identifier 0 too.  Second, the [Null] that the first [NewNull] of a
    process returns has the identifier 0, and after 2^64 - 1 more calls of
    [NewNull] the counter is back at 0: its clone gets the identifier 0. *)
Lemma Null_Clone_repeats_identifier :
  (let w : @World string :=
     {| nextIteratorID := 0; heap := {[1%positive := Null_literal 0]} |} in
   ∃ c w' itc,
     Null_Clone 1%positive w = Some (c, w') ∧ heap w' !! c = Some itc ∧
     c ≠ 1%positive ∧
     Null_UID itc = Null_UID (@Null_literal string 0)) ∧
  (∃ p w1,
     NewNull (@World_init string) = Some (p, w1) ∧
     let w := NewNull_times 18446744073709551615 w1 in
     ∃ it c w' itc,
       heap w !! p = Some it ∧
       Null_Clone p w = Some (c, w') ∧ heap w' !! c = Some itc ∧
       c ≠ p ∧
       Null_UID itc = Null_UID it).
Proof.
  split.
  - intros w. eexists _, _, _. split; [apply NewNull_run|].
    split; [apply lookup_insert_eq|]. split; [|reflexivity].
    intros Heq. pose proof (NewNull_fresh w) as Hfresh.
    rewrite Heq in Hfresh. discriminate Hfresh.
  - exists 1%positive,
      {| nextIteratorID := 1; heap := {[1%positive := Null_literal 0]} |}.
    split; [reflexivity|]. intros w.
    assert (is_uint64 1) as Hone by (unfold is_uint64, uint64_modulus; lia).
    assert (nextIteratorID w = 0 ∧ heap w !! 1%positive = Some (Null_literal 0))
      as [Hctr Hp].
    { destruct (NewNull_times_run 18446744073709551615
                  {| nextIteratorID := 1; heap := {[1%positive := Null_literal 0]} |}
                  1%positive (@Null_literal string 0) Hone (lookup_singleton_eq _ _))
        as [Hctr Hp].
      split; [|exact Hp]. subst w. rewrite Hctr. reflexivity. }
    clearbody w.
    exists (Null_literal 0), (fresh (dom (heap w))). eexists _, _.
    split; [exact Hp|]. split; [apply NewNull_run|]. cbn [heap].
    split; [apply lookup_insert_eq|]. split.
    + intros Heq. pose proof (NewNull_fresh w) as Hfresh.
      rewrite Heq, Hp in Hfresh. discriminate Hfresh.
    + rewrite Hctr. reflexivity.
Qed.

(** * Further properties of the file *)

(** ** [NextUID] *)

(** X1.  [NextUID] returns what the counter held and stores the successor
    modulo 2^64, also at the last value before the wrap, where the
    subtraction from the wrapped sum 0 gives 2^64 - 1 back.  So the [i]-th of
    [n] calls returns the first content plus [i] modulo 2^64, the counter
    ends at the first content plus [n] modulo 2^64, and everything stays a
    [uint64]. *)
Theorem NextUID_hands_out_the_counter (s : Z) (n : nat) :
  is_uint64 s →
  NextUID s = (s, wrap64 (s + 1)) ∧
  (NextUID_calls n s).2 = wrap64 (s + Z.of_nat n) ∧
  (∀ i : nat, (i < n)%nat →
     (NextUID_calls n s).1 !! i = Some (wrap64 (s + Z.of_nat i))) ∧
  Forall is_uint64 (NextUID_calls n s).1 ∧
  is_uint64 (NextUID_calls n s).2.
Proof.
  intros Hs.
  split; [by apply NextUID_returns_old|].
  split; [by apply NextUID_calls_counter|].
  split; [intros i Hi; by apply NextUID_calls_lookup|].
  split.
  - apply Forall_lookup. intros i x Hx.
    pose proof (lookup_lt_Some _ _ _ Hx) as Hi.
    rewrite NextUID_calls_length in Hi.
    rewrite NextUID_calls_lookup in Hx by done.
    injection Hx as <-. apply wrap64_range.
  - rewrite NextUID_calls_counter by done. apply wrap64_range.
Qed.

Lemma NextUID_hands_out_the_counter_witness :
  NextUID 18446744073709551615 =
    (18446744073709551615, wrap64 (18446744073709551615 + 1)) ∧
  (NextUID_calls 2 18446744073709551615).2 =
    wrap64 (18446744073709551615 + Z.of_nat 2) ∧
  (∀ i : nat, (i < 2)%nat →
     (NextUID_calls 2 18446744073709551615).1 !! i =
     Some (wrap64 (18446744073709551615 + Z.of_nat i))) ∧
  Forall is_uint64 (NextUID_calls 2 18446744073709551615).1 ∧
  is_uint64 (NextUID_calls 2 18446744073709551615).2.
Proof.
  apply (NextUID_hands_out_the_counter 18446744073709551615 2).
  unfold is_uint64, uint64_modulus. lia.
Defined.

Section Coverage.

Context {V : Type}.
Implicit Types (it : @Null V) (b : @Base V) (v : @Value V) (w : @World V).
Implicit Types (dst : gmap string (@Value V)) (p c : loc).

(** The runtime's memory oracle: the properties hold whatever it grants. *)
Variable allocates : Z → bool.

(** ** [DebugString] *)

Lemma string_length_app (a c : string) :
  String.length (a +:+ c) = (String.length a + String.length c)%nat.
Proof. induction a as [|x a IH]; [done|]. simpl. by rewrite IH. Qed.

Lemma string_copies_length (n : nat) :
  String.length (string_copies n " ") = n.
Proof.
  induction n as [|n IH]; [done|].
  cbn [string_copies]. by rewrite string_length_app, IH.
Qed.


(** The padding comes back exactly when the count is an [int] that is not
    negative and the runtime provides the memory. *)
Lemma strings_Repeat_Some (count : Z) (pad : string) :
  strings_Repeat allocates " " count = Some pad ↔
  0 <= count ∧ count <= max_int ∧ allocates count = true ∧
  pad = string_copies (Z.to_nat count) " ".
Proof.
  unfold strings_Repeat. cbn [String.length].
  replace (Z.of_nat 1 * count) with count by lia.
  destruct (decide (count < 0)) as [Hneg|Hpos]; [split; [done|lia]|].
  destruct (decide (max_int < count)) as [Hbig|Hfit]; [split; [done|lia]|].
  destruct (allocates count) eqn:Hmem.
  - split; [intros [= <-]; repeat split; (done || lia)|].
    by intros (_ & _ & _ & ->).
  - split; [done|]. by intros (_ & _ & ? & _).
Qed.

(** The body the two [DebugString] methods share, for any suffix of six
    characters. *)
Lemma DebugString_body_Some (suffix : string) (indent : Z) (s : string) :
  String.length suffix = 6%nat →
  match strings_Repeat allocates " " indent with
  | Some pad => new_string allocates (pad +:+ suffix)
  | None => None
  end = Some s ↔
  0 <= indent ∧ indent <= max_int ∧
  allocates indent = true ∧ allocates (indent + 6) = true ∧
  s = string_copies (Z.to_nat indent) " " +:+ suffix.
Proof.
  intros Hsuffix.
  destruct (strings_Repeat allocates " " indent) as [pad|] eqn:Hpad.
  - apply strings_Repeat_Some in Hpad as (Hpos & Hfit & Hmem & ->).
    unfold new_string.
    rewrite string_length_app, string_copies_length, Hsuffix.
    replace (Z.of_nat (Z.to_nat indent + 6)) with (indent + 6) by lia.
    destruct (allocates (indent + 6)).
    + split; [by intros [= <-]|]. by intros (_ & _ & _ & _ & ->).
    + split; [done|]. by intros (_ & _ & _ & ? & _).
  - split; [done|]. intros (Hpos & Hfit & Hmem & _ & _).
    assert (strings_Repeat allocates " " indent =
            Some (string_copies (Z.to_nat indent) " ")) as Hsome
      by (by apply strings_Repeat_Some).
    by rewrite Hsome in Hpad.
Qed.

Lemma Null_DebugString_Some it (indent : Z) (s : string) :
  Null_DebugString allocates it indent = Some s ↔
  0 <= indent ∧ indent <= max_int ∧
  allocates indent = true ∧ allocates (indent + 6) = true ∧
  s = string_copies (Z.to_nat indent) " " +:+ "(null)".
Proof. by apply DebugString_body_Some. Qed.



(** ** [TagResults] into a map that may be nil *)

Lemma map_stores_Some (kvs : list (string * @Value V)) dst :
  map_stores kvs (Some dst) = Some (Some (range_Fixed kvs dst)).
Proof.
  unfold range_Fixed. revert dst.
  induction kvs as [|kv kvs IH]; intros dst; [done|]. simpl. apply IH.
Qed.

Lemma map_stores_nil (kvs : list (string * @Value V)) :
  map_stores kvs None = if kvs is [] then Some None else None.
Proof. by destruct kvs. Qed.

Lemma range_Tags_as_stores it dst :
  range_Fixed ((λ tag, (tag, Null_Result it)) <$> Tags (tags it)) dst =
  range_Tags it dst.
Proof.
  unfold range_Fixed, range_Tags. revert dst.
  induction (Tags (tags it)) as [|tag ts IH]; intros dst; [done|].
  simpl. apply IH.
Qed.

(** A map the caller made is filled as [Null_TagResults] says. *)
Lemma Null_TagResults_into_Some it dst :
  Null_TagResults_into it (Some dst) = Some (Some (Null_TagResults it dst)).
Proof.
  unfold Null_TagResults_into.
  by rewrite map_stores_Some, range_Tags_as_stores, map_stores_Some.
Qed.

Lemma tag_names_empty it :
  tag_names it = ∅ ↔ Tags (tags it) = [] ∧ map_to_list (Fixed (tags it)) = [].
Proof.
  unfold tag_names. split.
  - intros Hempty. apply empty_union_L in Hempty as [Hdyn Hfixed]. split.
    + destruct (Tags (tags it)) as [|tag ts]; [done|].
      assert (tag ∈ (∅ : gset string)) as Hin
        by (rewrite <-Hdyn; apply elem_of_list_to_set; by left).
      by apply elem_of_empty in Hin.
    + apply dom_empty_inv_L in Hfixed. rewrite Hfixed. apply map_to_list_empty.
  - intros [Hdyn Hfixed]. apply map_to_list_empty_iff in Hfixed.
    by rewrite Hdyn, Hfixed, dom_empty_L, list_to_set_nil, (left_id_L ∅ (∪)).
Qed.

(** A nil map is left nil when the receiver has no tag; the first store
    panics when it has one. *)
Lemma Null_TagResults_into_nil it :
  Null_TagResults_into it None =
  if bool_decide (tag_names it = ∅) then Some None else None.
Proof.
  unfold Null_TagResults_into. rewrite map_stores_nil.
  destruct (Tags (tags it)) as [|tag ts] eqn:Hdyn; cbn [fmap list_fmap].
  - rewrite map_stores_nil.
    destruct (map_to_list (Fixed (tags it))) as [|kv kvs] eqn:Hfixed.
    + rewrite bool_decide_eq_true_2; [done|]. by apply tag_names_empty.
    + rewrite bool_decide_eq_false_2; [done|].
      intros Hempty. apply tag_names_empty in Hempty as [_ Hnone].
      by rewrite Hfixed in Hnone.
  - rewrite bool_decide_eq_false_2; [done|].
    intros Hempty. apply tag_names_empty in Hempty as [Hnone _].
    by rewrite Hdyn in Hnone.
Qed.

(** ** The method set of a [Null] *)

Lemma Null_Reset_unchanged it : Null_Reset it = it.
Proof. by destruct it. Qed.

Lemma Null_DebugString_runs it (indent : Z) :
  is_Some (Null_DebugString allocates it indent) ↔
  panics allocates it (MDebugString indent) = false.
Proof.
  cbn [panics]. rewrite !orb_false_iff, !negb_false_iff.
  rewrite !bool_decide_eq_false. split.
  - intros [s Hs]. apply Null_DebugString_Some in Hs.
    destruct Hs as (? & ? & ? & ? & _). repeat split; (done || lia).
  - intros (((Hpos & Hfit) & Hmem) & Hmem'). eexists.
    apply Null_DebugString_Some. repeat split; (done || lia).
Qed.

Lemma Null_method_unchanged (m : Method) it :
  match Null_method allocates m it with
  | Some (_, it') => it' = it ∧ panics allocates it m = false
  | None => panics allocates it m = true
  end.
Proof.
  destruct m as [v| | | | | | | | | | | |dst|indent]; cbn [Null_method];
    try done.
  - by rewrite Null_Check_unchanged.
  - by rewrite Null_Next_unchanged.
  - by rewrite Null_NextResult_unchanged.
  - by rewrite Null_Reset_unchanged.
  - destruct dst as [dst|].
    + by rewrite Null_TagResults_into_Some.
    + rewrite Null_TagResults_into_nil. cbn [panics].
      by destruct (bool_decide (tag_names it = ∅)).
  - pose proof (Null_DebugString_runs it indent) as Hruns.
    destruct (Null_DebugString allocates it indent) as [s|].
    + split; [done|]. apply Hruns. by eexists.
    + apply not_false_iff_true. intros Hok.
      apply Hruns in Hok as [s Hs]. done.
Qed.

Lemma Null_methods_unchanged (ms : list Method) it :
  match Null_methods allocates ms it with
  | Some (answers, it') =>
      it' = it ∧ length answers = length ms ∧
      existsb (panics allocates it) ms = false
  | None => existsb (panics allocates it) ms = true
  end.
Proof.
  induction ms as [|m ms IH]; [done|]. cbn [Null_methods existsb].
  pose proof (Null_method_unchanged m it) as Hm.
  destruct (Null_method allocates m it) as [[a it']|]; [|by rewrite Hm].
  destruct Hm as [-> ->]. simpl.
  destruct (Null_methods allocates ms it) as [[answers it'']|]; [|done].
  destruct IH as (-> & Hlen & Hok). simpl. by rewrite Hlen.
Qed.

(** X2.  No method of a [Null] that is given the receiver only ([Check],
    [Next], [NextResult], [Result], [Size], [CanNext], [Reset], [Close],
    [UID], [Type], [Stats], [SubIterators], [TagResults], [DebugString])
    changes the receiver: on a live receiver a sequence of such calls answers
    every call and leaves the [Null] as it was, unless one of them does not
    return.  Those are a [DebugString] whose indent is negative or asks for
    more memory than the runtime provides, and a [TagResults] into a nil map
    when the receiver has a tag to write. *)
Theorem Null_methods_never_change_the_receiver it (ms : list Method) :
  (existsb (panics allocates it) ms = false →
   ∃ answers, Null_methods allocates ms it = Some (answers, it) ∧
              length answers = length ms) ∧
  (existsb (panics allocates it) ms = true →
   Null_methods allocates ms it = None).
Proof.
  pose proof (Null_methods_unchanged ms it) as H.
  destruct (Null_methods allocates ms it) as [[answers it']|].
  - destruct H as (-> & Hlen & Hok). split; [by eauto|].
    intros Hbad. by rewrite Hok in Hbad.
  - split; [|done]. intros Hok. by rewrite Hok in H.
Qed.

(** ** [Size] and the enumeration *)

Lemma exhausted_yield_nothing (rs : list (@Value V * bool)) :
  Forall (λ r, r = (Nil, false)) rs →
  filter (λ r : @Value V * bool, r.2 = true) rs = [].
Proof.
  induction 1 as [|r rs -> _ IH]; [done|].
  rewrite filter_cons_False by done. exact IH.
Qed.

(** X3.  [Size] says zero values, exactly, and the enumeration agrees: of
    any number of [Next] calls on a [Base] or a [Null] none yields a value.
    The size field of [Stats] agrees with [Size] for a [Null], and does not
    for a [Base]. *)
Theorem Size_agrees_with_enumeration b it (n : nat) :
  Z.of_nat (length (filter (λ r : @Value V * bool, r.2 = true)
                      (Next_times Base_Next n b).1)) = (Base_Size b).1 ∧
  (Base_Size b).2 = true ∧
  Z.of_nat (length (filter (λ r : @Value V * bool, r.2 = true)
                      (Next_times Null_Next n it).1)) = (Null_Size it).1 ∧
  (Null_Size it).2 = true ∧
  Size (Null_Stats it) = (Null_Size it).1 ∧
  Size (Base_Stats b) ≠ (Base_Size b).1.
Proof.
  assert (Forall (λ r, r = (@Nil V, false)) (Next_times Base_Next n b).1) as Hb
    by (by apply Next_times_exhausted).
  assert (Forall (λ r, r = (@Nil V, false)) (Next_times Null_Next n it).1) as Hn
    by (apply Next_times_exhausted, Null_Next_unchanged).
  rewrite (exhausted_yield_nothing _ Hb), (exhausted_yield_nothing _ Hn).
  by repeat split.
Qed.

(** ** [BaseInit] *)

(** X4.  [BaseInit] sets the can-advance flag and nothing else, and calling
    it again changes nothing; once set, the flag stays set through [Reset],
    any number of [Next] calls, and any sequence of method calls on a [Null]
    whose embedded [Base] was initialised. *)
Theorem BaseInit_flag_is_kept b it (n : nat) (ms : list Method) :
  BaseInit (BaseInit b) = BaseInit b ∧
  Base_CanNext (BaseInit b) = true ∧
  Base_Result (BaseInit b) = Base_Result b ∧
  Base_CanNext (Base_Reset (BaseInit b)) = true ∧
  Base_CanNext (Next_times Base_Next n (BaseInit b)).2 = true ∧
  Null_Result (Null_BaseInit it) = Null_Result it ∧
  Null_UID (Null_BaseInit it) = Null_UID it ∧
  tags (Null_BaseInit it) = tags it ∧
  (∀ answers it',
     Null_methods allocates ms (Null_BaseInit it) = Some (answers, it') →
     Null_CanNext it' = true).
Proof.
  do 4 (split; [done|]).
  split. { by rewrite (proj2 (Next_times_exhausted Base_Next n _ (λ y, eq_refl))). }
  do 3 (split; [done|]).
  intros answers it' Hrun.
  pose proof (Null_methods_unchanged ms (Null_BaseInit it)) as H.
  rewrite Hrun in H. by destruct H as [-> _].
Qed.

(** ** More on [TagResults] *)

Lemma Null_TagResults_lookup it dst (tag : string) :
  Null_TagResults it dst !! tag =
  match Fixed (tags it) !! tag with
  | Some value => Some value
  | None => if decide (tag ∈ Tags (tags it)) then Some (Null_Result it)
            else dst !! tag
  end.
Proof. by apply Null_TagResults_visiting_lookup. Qed.

Lemma elem_of_tag_names it (tag : string) :
  tag ∈ tag_names it ↔ tag ∈ Tags (tags it) ∨ is_Some (Fixed (tags it) !! tag).
Proof.
  unfold tag_names. by rewrite elem_of_union, elem_of_list_to_set, elem_of_dom.
Qed.

Lemma Null_TagResults_lookup_named it dst (tag : string) :
  tag ∈ tag_names it →
  Null_TagResults it dst !! tag = Null_TagResults it ∅ !! tag ∧
  is_Some (Null_TagResults it dst !! tag).
Proof.
  rewrite elem_of_tag_names, !Null_TagResults_lookup.
  destruct (Fixed (tags it) !! tag) as [value|].
  { intros _. split; [done|by eexists]. }
  intros [Hdyn|[? ?]]; [|done]. rewrite !decide_True by done.
  split; [done|by eexists].
Qed.

Lemma Null_TagResults_lookup_other it dst (tag : string) :
  tag ∉ tag_names it → Null_TagResults it dst !! tag = dst !! tag.
Proof.
  rewrite elem_of_tag_names, Null_TagResults_lookup. intros Hnot.
  destruct (Fixed (tags it) !! tag) as [value|] eqn:Hfixed.
  - destruct Hnot. right. by eexists.
  - rewrite decide_False; [done|]. intros Hdyn. destruct Hnot. by left.
Qed.

(** X6.  [TagResults] only adds and overwrites: the keys of the caller's
    map afterwards are the keys it had together with the receiver's tag
    names, a key that is not one of those names keeps its binding, a key that
    is one gets the binding it would get in an empty map, and calling
    [TagResults] a second time changes nothing more. *)
Theorem Null_TagResults_adds_its_names it dst :
  dom (Null_TagResults it dst) = dom dst ∪ tag_names it ∧
  (∀ tag : string, tag ∉ tag_names it →
     Null_TagResults it dst !! tag = dst !! tag) ∧
  (∀ tag : string, tag ∈ tag_names it →
     Null_TagResults it dst !! tag = Null_TagResults it ∅ !! tag) ∧
  Null_TagResults it (Null_TagResults it dst) = Null_TagResults it dst.
Proof.
  split; [|split; [|split; [intros tag Hin;
                             apply (Null_TagResults_lookup_named it dst tag Hin)|]]].
  - apply set_eq. intros tag. rewrite elem_of_union, !elem_of_dom.
    destruct (decide (tag ∈ tag_names it)) as [Hin|Hnot].
    + pose proof (Null_TagResults_lookup_named it dst tag Hin) as [_ Hsome].
      split; [by right|done].
    + rewrite (Null_TagResults_lookup_other _ _ _ Hnot).
      split; [by left|]. by intros [?|?].
  - apply Null_TagResults_lookup_other.
  - apply map_eq. intros tag.
    destruct (decide (tag ∈ tag_names it)) as [Hin|Hnot].
    + rewrite (proj1 (Null_TagResults_lookup_named it (Null_TagResults it dst) tag Hin)).
      by rewrite (proj1 (Null_TagResults_lookup_named it dst tag Hin)).
    + by rewrite (Null_TagResults_lookup_other it (Null_TagResults it dst) _ Hnot).
Qed.

(** X7.  Two iterators that share no tag name fill the caller's map to the
    same result in either order. *)
Theorem Null_TagResults_commute it1 it2 dst :
  tag_names it1 ## tag_names it2 →
  Null_TagResults it1 (Null_TagResults it2 dst) =
  Null_TagResults it2 (Null_TagResults it1 dst).
Proof.
  intros Hdisj. apply map_eq. intros tag.
  destruct (decide (tag ∈ tag_names it1)) as [H1|H1].
  - assert (tag ∉ tag_names it2) as H2 by set_solver.
    rewrite (Null_TagResults_lookup_other it2 _ _ H2).
    rewrite (proj1 (Null_TagResults_lookup_named it1 (Null_TagResults it2 dst) tag H1)).
    by rewrite (proj1 (Null_TagResults_lookup_named it1 dst tag H1)).
  - rewrite (Null_TagResults_lookup_other it1 _ _ H1).
    destruct (decide (tag ∈ tag_names it2)) as [H2|H2].
    + rewrite (proj1 (Null_TagResults_lookup_named it2 (Null_TagResults it1 dst) tag H2)).
      by rewrite (proj1 (Null_TagResults_lookup_named it2 dst tag H2)).
    + rewrite !(Null_TagResults_lookup_other it2 _ _ H2).
      by rewrite (Null_TagResults_lookup_other it1 _ _ H1).
Qed.

Lemma Null_use_keeps_Result_and_uid (u : Use) it :
  Null_Result (Null_use u it) = Null_Result it ∧
  Null_UID (Null_use u it) = Null_UID it.
Proof.
  destruct u as [call|f]; [|done]. simpl.
  by rewrite (proj2 (Null_call_unchanged call it)).
Qed.

Lemma Null_uses_keep_Result_and_uid (us : list Use) it :
  Null_Result (Null_uses us it) = Null_Result it ∧
  Null_UID (Null_uses us it) = Null_UID it.
Proof.
  unfold Null_uses. revert it. induction us as [|u us IH]; intros it; [done|].
  simpl. destruct (IH (Null_use u it)) as [-> ->].
  apply Null_use_keeps_Result_and_uid.
Qed.

(** X8.  A [Null] made by [NewNull] never resolves a dynamic tag to a
    value: whatever traversal calls and registrations follow its
    construction, [Result()] stays nil, the identifier stays what it was,
    and [TagResults] binds every dynamic tag that has no fixed value to
    nil. *)
Theorem Null_dynamic_tags_stay_nil (id : Z) (us : list Use) dst (tag : string) :
  let it := Null_uses us (Null_literal id) in
  tag ∈ Tags (tags it) → Fixed (tags it) !! tag = None →
  Null_Result it = Nil ∧ Null_UID it = id ∧
  Null_TagResults it dst !! tag = Some Nil.
Proof.
  intros it Hdyn Hfixed.
  destruct (Null_uses_keep_Result_and_uid us (Null_literal id)) as [Hres Huid].
  fold it in Hres, Huid. split; [exact Hres|]. split; [exact Huid|].
  by rewrite Null_TagResults_lookup, Hfixed, decide_True, Hres.
Qed.

(** ** Construction and identity *)

(** X9.  [Clone] (which is [NewNull]) never panics and does not read its
    receiver, which may even point to no object.  It adds exactly one
    object, at an address that was free, advances the counter by one modulo
    2^64 and leaves every other object as it was; the new [Null] has no
    match and the can-advance flag unset, whatever the receiver held. *)
Theorem Null_Clone_adds_one_object w p :
  ∃ c w' itc,
    Null_Clone p w = Some (c, w') ∧
    heap w !! c = None ∧ heap w' !! c = Some itc ∧
    Null_Result itc = Nil ∧ Null_CanNext itc = false ∧
    dom (heap w') = {[c]} ∪ dom (heap w) ∧
    size (heap w') = S (size (heap w)) ∧
    (∀ q it, heap w !! q = Some it → heap w' !! q = Some it) ∧
    nextIteratorID w' = wrap64 (nextIteratorID w + 1) ∧
    (∀ q, Null_Clone q w = Some (c, w')).
Proof.
  eexists _, _, _. split; [apply NewNull_run|]. cbn [heap nextIteratorID].
  split; [apply NewNull_fresh|].
  split; [apply lookup_insert_eq|].
  do 2 (split; [done|]).
  split; [apply dom_insert_L|].
  split; [apply map_size_insert_None, NewNull_fresh|].
  split.
  - intros q it Hq. rewrite lookup_insert_ne; [done|].
    intros Heq. pose proof (NewNull_fresh w) as Hfresh.
    rewrite Heq, Hq in Hfresh. done.
  - split; [done|]. intros q. apply NewNull_run.
Qed.

Lemma invoke_keeps_uids {A : Type} p (m : Null → A * Null) w (r : A) w' :
  (∀ it, uid (m it).2 = uid it) →
  invoke p m w = Some (r, w') →
  nextIteratorID w' = nextIteratorID w ∧
  size (heap w') = size (heap w) ∧
  ∀ q it', heap w' !! q = Some it' →
    ∃ it, heap w !! q = Some it ∧ uid it' = uid it.
Proof.
  intros Hm. unfold invoke.
  destruct (heap w !! p) as [it|] eqn:Hp; [|done].
  specialize (Hm it). destruct (m it) as [r' it']. simpl in Hm.
  intros [= _ <-]. cbn [heap nextIteratorID].
  split; [done|]. split; [by apply map_size_insert_Some|].
  intros q it0. rewrite lookup_insert. case_decide as Hq.
  - intros [= <-]. subst q. by exists it.
  - intros Hit0. by exists it0.
Qed.

(** The invariant of the worlds with [k] constructions. *)
Lemma Constructed_invariant (k : nat) w :
  Constructed k w → Z.of_nat k < uint64_modulus →
  nextIteratorID w = Z.of_nat k ∧
  size (heap w) = k ∧
  (∀ p it, heap w !! p = Some it → 0 <= uid it < Z.of_nat k) ∧
  (∀ p q it it', heap w !! p = Some it → heap w !! q = Some it' →
     uid it = uid it' → p = q).
Proof.
  assert (∀ k w x w', Z.of_nat (S k) < uint64_modulus →
    (nextIteratorID w = Z.of_nat k ∧ size (heap w) = k ∧
     (∀ p it, heap w !! p = Some it → 0 <= uid it < Z.of_nat k) ∧
     (∀ p q it it', heap w !! p = Some it → heap w !! q = Some it' →
        uid it = uid it' → p = q)) →
    NewNull w = Some (x, w') →
    nextIteratorID w' = Z.of_nat (S k) ∧ size (heap w') = S k ∧
    (∀ p it, heap w' !! p = Some it → 0 <= uid it < Z.of_nat (S k)) ∧
    (∀ p q it it', heap w' !! p = Some it → heap w' !! q = Some it' →
       uid it = uid it' → p = q)) as Hnew.
  { clear. intros k w x w' Hroom (Hctr & Hsize & Hrange & Hdist).
    assert (is_uint64 (nextIteratorID w)) as Hu
      by (unfold is_uint64; lia).
    rewrite NewNull_run, (NextUID_returns_old _ Hu). cbn [fst snd].
    rewrite wrap64_small by (unfold is_uint64; lia).
    intros [= _ <-]. cbn [heap nextIteratorID].
    split; [lia|].
    split; [by rewrite map_size_insert_None, Hsize by apply NewNull_fresh|].
    split.
    - intros p it. rewrite lookup_insert. case_decide as Hp.
      + intros [= <-]. simpl. lia.
      + intros Hit. specialize (Hrange _ _ Hit). lia.
    - intros p q it it'. rewrite !lookup_insert.
      case_decide as Hp; case_decide as Hq.
      + congruence.
      + intros [= <-] Hit'. specialize (Hrange _ _ Hit'). simpl. lia.
      + intros Hit [= <-]. specialize (Hrange _ _ Hit). simpl. lia.
      + apply Hdist. }
  assert (∀ (A : Type) k w p (m : Null → A * Null) (r : A) w',
    (∀ it, uid (m it).2 = uid it) →
    (nextIteratorID w = Z.of_nat k ∧ size (heap w) = k ∧
     (∀ p it, heap w !! p = Some it → 0 <= uid it < Z.of_nat k) ∧
     (∀ p q it it', heap w !! p = Some it → heap w !! q = Some it' →
        uid it = uid it' → p = q)) →
    invoke p m w = Some (r, w') →
    nextIteratorID w' = Z.of_nat k ∧ size (heap w') = k ∧
    (∀ p it, heap w' !! p = Some it → 0 <= uid it < Z.of_nat k) ∧
    (∀ p q it it', heap w' !! p = Some it → heap w' !! q = Some it' →
       uid it = uid it' → p = q)) as Hcall.
  { clear. intros A k w p m r w' Hm (Hctr & Hsize & Hrange & Hdist) Hrun.
    destruct (invoke_keeps_uids _ _ _ _ _ Hm Hrun) as (Hctr' & Hsize' & Hold).
    split; [lia|]. split; [lia|]. split.
    - intros q it' Hq. destruct (Hold _ _ Hq) as (it & Hit & ->).
      by apply (Hrange q).
    - intros q q' it1 it2 H1 H2.
      destruct (Hold _ _ H1) as (it1' & H1' & ->).
      destruct (Hold _ _ H2) as (it2' & H2' & ->).
      by apply Hdist. }
  induction 1 as [|k w p w' _ IH Hrun|k w p c w' _ IH Hrun
                  |k w p call r w' _ IH Hrun|k w p f w' _ IH Hrun];
    intros Hk.
  - split; [done|]. split; [done|]. split; intros *; cbn [World_init heap];
      by rewrite lookup_empty.
  - apply (Hnew k w p w' Hk); [apply IH; lia|done].
  - apply (Hnew k w c w' Hk); [apply IH; lia|done].
  - apply (Hcall _ k w p (Null_call call) r w'); [|by apply IH|done].
    intros it. by rewrite (proj2 (Null_call_unchanged call it)).
  - by apply (Hcall _ k w p (λ it, (tt, Null_Tagger f it)) tt w'); [|apply IH|].
Qed.

(** X10.  In every world a process reaches from its start by [NewNull],
    [Clone], traversal calls and tag registrations, as long as it has
    constructed fewer than 2^64 iterators: the counter holds the number of
    constructions, which is the number of live [Null] values, every [UID()]
    is below it, and two different [Null] values have different [UID()]s. *)
Theorem Constructed_identifiers_unique (k : nat) w :
  Constructed k w → Z.of_nat k < uint64_modulus →
  nextIteratorID w = Z.of_nat k ∧
  size (heap w) = k ∧
  (∀ p it, heap w !! p = Some it → 0 <= Null_UID it < Z.of_nat k) ∧
  (∀ p q it it', heap w !! p = Some it → heap w !! q = Some it' →
     p ≠ q → Null_UID it ≠ Null_UID it').
Proof.
  intros Hrun Hk.
  destruct (Constructed_invariant k w Hrun Hk) as (Hctr & Hsize & Hrange & Hdist).
  split; [done|]. split; [done|]. split; [exact Hrange|].
  intros p q it it' Hp Hq Hne Heq. apply Hne. by apply (Hdist p q it it').
Qed.

End Coverage.

(** ** Instances of the further properties *)

(** The debug strings at indent 2, the panic at indent -1, and no string
    at indent 2^62 where the runtime refuses lengths over 2^48. *)
Example DebugString_at_two :
  let allocates := allocates_up_to (2 ^ 48) in
  Null_DebugString allocates (@Null_literal Z 0) 2 = Some "  (null)"%string ∧
  Base_DebugString allocates (@Base_zero Z) 2 = Some "  (base)"%string ∧
  Null_DebugString allocates (@Null_literal Z 0) 0 = Some "(null)"%string ∧
  Null_DebugString allocates (@Null_literal Z 0) (-1) = None ∧
  Null_DebugString allocates (@Null_literal Z 0) (2 ^ 62) = None ∧
  Base_DebugString allocates (@Base_zero Z) (2 ^ 63 - 1) = None.
Proof. repeat split; reflexivity. Qed.


(** A run of every kind of call on a [Null] with one dynamic tag. *)
Example Null_methods_run :
  let it := Null_Tagger (λ t, Tagger_Add t "y") (@Null_literal Z 7) in
  Null_methods (allocates_up_to (2 ^ 48))
    [MNext; MCheck (Dyn 3); MNextResult; MResult; MSize; MCanNext; MReset;
     MClose; MUID; MType; MStats; MSubIterators; MTagResults (Some ∅);
     MDebugString 1] it =
  Some ([ANext Nil false; ABool false; ABool false; AValue Nil; ASize 0 true;
         ABool false; ANone; ANone; AUID 7; AType "null"%string;
         AStats (mkStats 0 0 0); AIterators [];
         ATags (Some {["y"%string := Nil]});
         AString " (null)"%string], it).
Proof. vm_compute. reflexivity. Qed.

(** [TagResults] into a nil map: a panic when the receiver has a tag,
    nothing at all when it has none; the calls before the panic are lost
    with it. *)
Example Null_methods_nil_map :
  let tagged := Null_Tagger (λ t, Tagger_Add t "y") (@Null_literal Z 7) in
  Null_methods (allocates_up_to (2 ^ 48)) [MNext; MTagResults None] tagged = None ∧
  Null_methods (allocates_up_to (2 ^ 48)) [MTagResults None] (@Null_literal Z 7) =
    Some ([ATags None], Null_literal 7) ∧
  Null_methods (allocates_up_to (2 ^ 48)) [MDebugString (2 ^ 62)] tagged = None.
Proof. repeat split; vm_compute; reflexivity. Qed.

Lemma Null_TagResults_commute_witness :
  let it1 := Null_Tagger (λ t, Tagger_Add t "a") (@Null_literal Z 0) in
  let it2 := Null_Tagger (λ t, Tagger_AddFixed t "b" (Dyn 2)) (@Null_literal Z 1) in
  Null_TagResults it1 (Null_TagResults it2 {["c"%string := Dyn 3]}) =
  Null_TagResults it2 (Null_TagResults it1 {["c"%string := Dyn 3]}).
Proof.
  intros it1 it2. apply (Null_TagResults_commute it1 it2).
  apply (bool_decide_unpack _). vm_compute. exact I.
Defined.

Lemma Null_dynamic_tags_stay_nil_witness :
  let us : list (@Use Z) :=
    [UseTagger (λ t, Tagger_Add t "y"); UseCall CallNext;
     UseCall (CallCheck (Dyn 4)); UseTagger (λ t, Tagger_AddFixed t "x" (Dyn 5))] in
  let it := Null_uses us (Null_literal 0) in
  Null_Result it = Nil ∧ Null_UID it = 0 ∧
  Null_TagResults it {["y"%string := Dyn 9]} !! "y"%string = Some Nil.
Proof.
  intros us it.
  apply (Null_dynamic_tags_stay_nil 0 us {["y"%string := Dyn 9]} "y"%string).
  - simpl. apply list_elem_of_here.
  - reflexivity.
Defined.

Lemma Constructed_identifiers_unique_witness :
  let w : @World Z :=
    {| nextIteratorID := 2;
       heap := {[1%positive := Null_literal 0; 2%positive := Null_literal 1]} |} in
  nextIteratorID w = Z.of_nat 2 ∧
  size (heap w) = 2%nat ∧
  (∀ p it, heap w !! p = Some it → 0 <= Null_UID it < Z.of_nat 2) ∧
  (∀ p q it it', heap w !! p = Some it → heap w !! q = Some it' →
     p ≠ q → Null_UID it ≠ Null_UID it').
Proof.
  intros w. apply (Constructed_identifiers_unique 2 w).
  - apply (Constructed_Clone 1 {| nextIteratorID := 1;
                                  heap := {[1%positive := Null_literal 0]} |}
             1%positive 2%positive).
    + apply (Constructed_NewNull 0 World_init 1%positive);
        [apply Constructed_start|reflexivity].
    + reflexivity.
  - unfold uint64_modulus. simpl. lia.
Defined.
